(** * Hydrogen radial wavefunction script: a shallow embedding

    Source: [Atom-Kern-Teilchenphysik/1dSchroedingerHydrogen.py].

    Numbers.  Python [int] is [Z].  Python [float] / NumPy [float64] is
    idealised as a real number ([R] of the Standard Library): rounding,
    overflow to [inf] ([factorial] above 170), underflow of [exp] to [0.0] and
    [nan] are outside this model.  Every statement below is therefore a
    statement about the exact values the script's arithmetic denotes.  Where
    NumPy would store [inf] (line 20 when [n * a0 = 0]) the cell holds an
    unspecified real; no later line reads it, because line 24 raises.  Line 68
    is one division of a literal by an integer, and is also run in binary64
    ([energy_binary64]).

    Objects.  A NumPy array is a cell of a heap (a list of cells, addressed
    by position); every NumPy operation of the script allocates a fresh cell
    for its result, as NumPy does for [a * b], [-a], [np.exp(a)] and so on.
    The module global [a0] and the output of the process (what [print] and
    [plt.show] emit) are part of the same world.

    Control.  A Python exception ends the computation with [inl e]; the world
    reached so far is kept. *)

From Stdlib Require Import PrimInt63 PrimFloat.
From Stdlib Require Import Reals ZArith String DecimalString List Lia Lra Psatz.
Import ListNotations.

Local Open Scope R_scope.

(** ** Worlds, exceptions and the monad of the script *)

Inductive exn : Type :=
| ZeroDivisionError
| ValueError (msg : string)
| DanglingRef.   (* a heap address without a cell; no Python program has one *)

Definition ref := nat.
Definition ndarray := list R.

(** One plotted line: [ax.plot(x, y, ..., label=...)]. *)
Record line2d : Type := mk_line2d {
  xdata : ndarray;
  ydata : ndarray;
  label : string
}.

(** The figure handed to the display: both panels and the title.  The title
    is [f'Hydrogen Atom: n={n}, l={l} | Energy = {energy:.3f} eV']; the text
    before the number and the number are kept apart, its rendering to three
    decimals is the renderer's. *)
Record figure : Type := mk_figure {
  ax1_line : line2d;
  ax2_line : line2d;
  suptitle_head : string;
  suptitle_energy : R
}.

Inductive event : Type :=
| Stdout (s : string)        (* print(s) *)
| PltShow (f : figure).      (* plt.show() *)

Record world : Type := mk_world {
  g_a0 : Z;                  (* module global a0 *)
  heap : list ndarray;       (* NumPy arrays *)
  trace : list event         (* what the process has emitted, oldest first *)
}.

Definition M (A : Type) : Type := world -> (exn + A) * world.

Definition ret {A} (a : A) : M A := fun w => (inr a, w).

Definition raise {A} (e : exn) : M A := fun w => (inl e, w).

Definition bind {A B} (c : M A) (k : A -> M B) : M B :=
  fun w =>
    match c w with
    | (inl e, w') => (inl e, w')
    | (inr a, w') => k a w'
    end.

Declare Scope py_scope.
Delimit Scope py_scope with py.
Notation "x <- c ;; k" := (bind c (fun x => k))
  (at level 61, c at next level, right associativity) : py_scope.
Notation "c ;; k" := (bind c (fun _ => k))
  (at level 61, right associativity) : py_scope.
Local Open Scope py_scope.

(** Reading the module global [a0]. *)
Definition get_a0 : M Z := fun w => (inr (g_a0 w), w).

(** Emitting to the process output. *)
Definition emit (e : event) : M unit :=
  fun w => (inr tt, mk_world (g_a0 w) (heap w) (trace w ++ [e])).

(** A fresh array. *)
Definition np_alloc (xs : ndarray) : M ref :=
  fun w => (inr (length (heap w)), mk_world (g_a0 w) (heap w ++ [xs]) (trace w)).

Definition np_read (p : ref) : M ndarray :=
  fun w =>
    match nth_error (heap w) p with
    | Some xs => (inr xs, w)
    | None => (inl DanglingRef, w)
    end.

(** ** NumPy operations used by the script *)

(** An elementwise operation with a scalar operand, or a unary ufunc. *)
Definition np_unary (f : R -> R) (p : ref) : M ref :=
  xs <- np_read p ;; np_alloc (map f xs).

Fixpoint zip_with (f : R -> R -> R) (xs ys : ndarray) : ndarray :=
  match xs, ys with
  | x :: xs', y :: ys' => f x y :: zip_with f xs' ys'
  | _, _ => []
  end.

(** An elementwise operation on two one-dimensional arrays, with NumPy's
    broadcasting: equal lengths go pointwise, a length-1 operand is
    stretched, anything else is a [ValueError]. *)
Definition np_binary (f : R -> R -> R) (p q : ref) : M ref :=
  xs <- np_read p ;;
  ys <- np_read q ;;
  if Nat.eqb (length xs) (length ys) then np_alloc (zip_with f xs ys)
  else match xs, ys with
       | [x], _ => np_alloc (map (fun y => f x y) ys)
       | _, [y] => np_alloc (map (fun x => f x y) xs)
       | _, _ => raise (ValueError "operands could not be broadcast together")
       end.

Definition np_scalar_mul (c : R) : ref -> M ref := np_unary (fun x => c * x).
Definition np_div_scalar (p : ref) (c : R) : M ref := np_unary (fun x => x / c) p.
Definition np_neg : ref -> M ref := np_unary Ropp.
Definition np_exp : ref -> M ref := np_unary exp.
Definition np_pow (p : ref) (k : Z) : M ref := np_unary (fun x => powerRZ x k) p.
Definition np_mul : ref -> ref -> M ref := np_binary Rmult.

(** [list[-1] = v] on a list. *)
Definition set_last (xs : ndarray) (v : R) : ndarray :=
  match xs with
  | [] => []
  | _ => removelast xs ++ [v]
  end.

(** [np.linspace(start, stop, num)] with [endpoint=True]:
    [step = (stop - start) / (num - 1)], [y = arange(0, num) * step + start],
    and [y[-1] = stop] when [num > 1]; for [num <= 1] the step is not used
    and [y = arange(0, num) * (stop - start) + start]. *)
Definition linspace (start stop : R) (num : nat) : ndarray :=
  let div := (num - 1)%nat in
  let delta := stop - start in
  let y :=
    if Nat.ltb 0 div
    then map (fun i => INR i * (delta / INR div) + start) (seq 0 num)
    else map (fun i => INR i * delta + start) (seq 0 num) in
  if Nat.ltb 1 num then set_last y stop else y.

Definition np_linspace (start stop : R) (num : nat) : M ref :=
  np_alloc (linspace start stop num).

(** ** Python and SciPy scalars *)

(** [x / d] for a float (or int) [x] and an int [d]: true division. *)
Definition py_truediv (x : R) (d : Z) : M R :=
  if Z.eqb d 0 then raise ZeroDivisionError else ret (x / IZR d).

(** [scipy.special.factorial(k)] for an int [k]: [k!] as a float, and [0] for
    a negative argument. *)
Definition factorial (k : Z) : R :=
  if Z.ltb k 0 then 0 else INR (fact (Z.to_nat k)).

(** The generalized Laguerre polynomial [L_k^(alpha)] at [x], by its
    three-term recurrence
    [(m+1) L_(m+1) = (2m + 1 + alpha - x) L_m - (m + alpha) L_(m-1)]. *)
Fixpoint eval_genlaguerre (k : nat) (alpha x : R) : R :=
  match k with
  | O => 1
  | S k' =>
      match k' with
      | O => 1 + alpha - x
      | S k'' =>
          ((2 * INR k' + 1 + alpha - x) * eval_genlaguerre k' alpha x
           - (INR k' + alpha) * eval_genlaguerre k'' alpha x) / INR k
      end
  end.

(** The polynomial object [scipy.special.genlaguerre] returns. *)
Record orthopoly1d : Type := mk_orthopoly1d {
  poly_degree : nat;
  poly_alpha : Z
}.

(** [scipy.special.genlaguerre(n, alpha)]: it rejects [alpha <= -1] and
    [n < 0] with a [ValueError], in this order. *)
Definition genlaguerre (n alpha : Z) : M orthopoly1d :=
  if Z.leb alpha (-1) then raise (ValueError "alpha must be > -1")
  else if Z.ltb n 0 then raise (ValueError "n must be nonnegative.")
  else ret (mk_orthopoly1d (Z.to_nat n) alpha).

(** Calling the polynomial on an array. *)
Definition poly_call (p : orthopoly1d) : ref -> M ref :=
  np_unary (eval_genlaguerre (poly_degree p) (IZR (poly_alpha p))).

(** ** The script *)

(** [a0 = 1] at module level: the world in which the functions run. *)
Definition module_world : world := mk_world 1 [] [].

(** [radial_wavefunction(n, l, r)], lines 8-35. *)
Definition radial_wavefunction (n l : Z) (r : ref) : M ref :=
  (* rho = 2 * r / (n * a0) *)
  t0 <- np_scalar_mul 2 r ;;
  a <- get_a0 ;;
  rho <- np_div_scalar t0 (IZR (n * a)) ;;
  (* norm = np.sqrt((2 / (n * a0))**3 * factorial(n - l - 1)
                    / (2 * n * factorial(n + l))) *)
  a <- get_a0 ;;
  q <- py_truediv 2 (n * a) ;;
  let norm :=
    sqrt (q ^ 3 * factorial (n - l - 1) / (IZR (2 * n) * factorial (n + l))) in
  (* laguerre_poly = genlaguerre(n - l - 1, 2 * l + 1) *)
  laguerre_poly <- genlaguerre (n - l - 1) (2 * l + 1) ;;
  (* R = norm * np.exp(-rho / 2) * rho**l * laguerre_poly(rho) *)
  t1 <- np_neg rho ;;
  t2 <- np_div_scalar t1 2 ;;
  t3 <- np_exp t2 ;;
  t4 <- np_scalar_mul norm t3 ;;
  t5 <- np_pow rho l ;;
  t6 <- np_mul t4 t5 ;;
  t7 <- poly_call laguerre_poly rho ;;
  R <- np_mul t6 t7 ;;
  ret R.

(** [str(k)] for an int. *)
Definition py_str (k : Z) : string := NilZero.string_of_int (Z.to_int k).

(** [f'n={n}, l={l}'], the legend label of both panels. *)
Definition state_label (n l : Z) : string :=
  ("n=" ++ py_str n ++ ", l=" ++ py_str l)%string.

(** [plot_single_state(n, l)], lines 37-73.  The calls that only style the
    axes (labels, titles, grid, legend, the zero line, [tight_layout]) do not
    change the data shown and are not modelled. *)
Definition plot_single_state (n l : Z) : M unit :=
  (* r_max = 30 * n**2 ; r = np.linspace(0.01, r_max, 1000) *)
  let r_max := (30 * n ^ 2)%Z in
  r <- np_linspace 0.01 (IZR r_max) 1000 ;;
  (* R = radial_wavefunction(n, l, r) *)
  R <- radial_wavefunction n l r ;;
  (* prob_density = r**2 * R**2 *)
  r2 <- np_pow r 2 ;;
  R2 <- np_pow R 2 ;;
  prob_density <- np_mul r2 R2 ;;
  (* ax1.plot(r, R, ...) ; ax2.plot(r, prob_density, ...) *)
  rv <- np_read r ;;
  Rv <- np_read R ;;
  pv <- np_read prob_density ;;
  let line1 := mk_line2d rv Rv (state_label n l) in
  let line2 := mk_line2d rv pv (state_label n l) in
  (* energy = -13.6 / n**2 *)
  energy <- py_truediv (-13.6) (n ^ 2) ;;
  (* fig.suptitle(...) ; plt.show() *)
  let head := ("Hydrogen Atom: " ++ state_label n l ++ " | Energy = ")%string in
  emit (PltShow (mk_figure line1 line2 head energy)).

(** The [__main__] block, lines 77-80. *)
Definition main : M unit :=
  emit (Stdout "Plotting n=2, l=0 state...") ;;
  plot_single_state 2 1.

(** ** What the evaluator computes, read off the code

    [rw_check] lists the exceptions of [radial_wavefunction] in the order the
    code meets them; [R_den] is the value the code's expression denotes at
    one grid point when none is raised. *)

Definition rw_check (a0 n l : Z) : option exn :=
  if Z.eqb (n * a0) 0 then Some ZeroDivisionError
  else if Z.leb (2 * l + 1) (-1) then Some (ValueError "alpha must be > -1")
  else if Z.ltb (n - l - 1) 0 then Some (ValueError "n must be nonnegative.")
  else None.

Definition R_den (a0 n l : Z) (x : R) : R :=
  sqrt ((2 / IZR (n * a0)) ^ 3 * factorial (n - l - 1)
        / (IZR (2 * n) * factorial (n + l)))
  * exp (- (2 * x / IZR (n * a0)) / 2)
  * powerRZ (2 * x / IZR (n * a0)) l
  * eval_genlaguerre (Z.to_nat (n - l - 1)) (IZR (2 * l + 1))
      (2 * x / IZR (n * a0)).

(** ** The specification's formula

    [rho = 2r/(n a0)] with [a0 = 1],
    [norm = sqrt((2/(n a0))^3 (n-l-1)! / (2n (n+l)!))],
    [R(r) = norm exp(-rho/2) rho^l L_(n-l-1)^(2l+1)(rho)]. *)

Definition rho_spec (n : Z) (r : R) : R := 2 * r / (IZR n * 1).

Definition norm_spec (n l : Z) : R :=
  sqrt ((2 / (IZR n * 1)) ^ 3 * INR (fact (Z.to_nat (n - l - 1)))
        / (2 * IZR n * INR (fact (Z.to_nat (n + l))))).

(** The generalized Laguerre polynomial by its explicit sum,
    [L_k^(alpha)(x) = sum_(i=0..k) (-1)^i C(k+alpha, k-i) x^i / i!] with
    [C(k+alpha, k-i) = (alpha+i+1) ... (alpha+k) / (k-i)!]. *)

(** (a + 1) (a + 2) ... (a + m) *)
Fixpoint rising (a : R) (m : nat) : R :=
  match m with
  | O => 1
  | S m' => rising a m' * (a + INR (S m'))
  end.

(** The coefficient of [x^i] in [L_k^(alpha)]; none above the degree. *)
Definition lag_coeff (k : nat) (alpha : R) (i : nat) : R :=
  if Nat.leb i k
  then (-1) ^ i * rising (alpha + INR i) (k - i)
       / (INR (fact (k - i)) * INR (fact i))
  else 0.

Definition laguerre_sum (k : nat) (alpha x : R) : R :=
  sum_f_R0 (fun i => lag_coeff k alpha i * x ^ i) k.

Definition laguerre_spec (n l : Z) (rho : R) : R :=
  laguerre_sum (Z.to_nat (n - l - 1)) (IZR (2 * l + 1)) rho.

Definition R_spec (n l : Z) (r : R) : R :=
  norm_spec n l * exp (- rho_spec n r / 2) * rho_spec n r ^ Z.to_nat l
  * laguerre_spec n l (rho_spec n r).

(** ** What the plotter shows, read off the code *)

Definition figure_den (a0 n l : Z) : figure :=
  let r := linspace 0.01 (IZR (30 * n ^ 2)) 1000 in
  let head := ("Hydrogen Atom: " ++ state_label n l ++ " | Energy = ")%string in
  mk_figure
    (mk_line2d r (map (R_den a0 n l) r) (state_label n l))
    (mk_line2d r
       (map (fun x => powerRZ x 2 * powerRZ (R_den a0 n l x) 2) r)
       (state_label n l))
    head (-13.6 / IZR (n ^ 2)).


(** ** Line 68 in binary64

    [energy = -13.6 / n**2] is one literal, one integer and one division, so
    here the IEEE arithmetic itself can be run: [13.6%float] is the binary64
    number nearest to 13.6, as the Python literal is, and a square below
    [2^53] converts to a float exactly. *)

#[local] Set Warnings "-inexact-float".


(** ** Stepping the monad *)

Lemma nth_error_snoc {A} (h : list A) (x : A) :
  nth_error (h ++ [x]) (length h) = Some x.
Proof.
  rewrite nth_error_app2 by lia. now rewrite Nat.sub_diag.
Qed.

Lemma nth_error_keep {A} (h e : list A) (p : nat) (x : A) :
  nth_error h p = Some x -> nth_error (h ++ e) p = Some x.
Proof.
  intros H. rewrite nth_error_app1; [assumption|].
  apply nth_error_Some. congruence.
Qed.

Lemma zip_with_map (f : R -> R -> R) (g h : R -> R) (xs : ndarray) :
  zip_with f (map g xs) (map h xs) = map (fun x => f (g x) (h x)) xs.
Proof.
  induction xs as [|x xs IH]; simpl; [reflexivity|]. now rewrite IH.
Qed.

Lemma length_zip_with (f : R -> R -> R) (xs ys : ndarray) :
  length xs = length ys -> length (zip_with f xs ys) = length xs.
Proof.
  revert ys. induction xs as [|x xs IH]; intros [|y ys] H; simpl in *;
    try discriminate; [reflexivity|].
  f_equal. apply IH. now injection H.
Qed.

Lemma np_unary_run (f : R -> R) (p : ref) (w : world) (xs : ndarray) :
  nth_error (heap w) p = Some xs ->
  np_unary f p w
  = (inr (length (heap w)),
     mk_world (g_a0 w) (heap w ++ [map f xs]) (trace w)).
Proof.
  intros H. unfold np_unary, bind, np_read. now rewrite H.
Qed.

Lemma np_binary_run (f : R -> R -> R) (p q : ref) (w : world)
      (xs ys : ndarray) :
  nth_error (heap w) p = Some xs ->
  nth_error (heap w) q = Some ys ->
  length xs = length ys ->
  np_binary f p q w
  = (inr (length (heap w)),
     mk_world (g_a0 w) (heap w ++ [zip_with f xs ys]) (trace w)).
Proof.
  intros Hp Hq Hlen. unfold np_binary, bind, np_read.
  rewrite Hp, Hq, Hlen, Nat.eqb_refl. reflexivity.
Qed.

Lemma bind_ok {A B} (c : M A) (k : A -> M B) (w w' : world) (a : A) :
  c w = (inr a, w') -> bind c k w = k a w'.
Proof. intros H. unfold bind. now rewrite H. Qed.

Lemma bind_err {A B} (c : M A) (k : A -> M B) (w w' : world) (e : exn) :
  c w = (inl e, w') -> bind c k w = (inl e, w').
Proof. intros H. unfold bind. now rewrite H. Qed.

Lemma get_a0_run (w : world) : get_a0 w = (inr (g_a0 w), w).
Proof. reflexivity. Qed.

Lemma py_truediv_ok (x : R) (d : Z) (w : world) :
  d <> 0%Z -> py_truediv x d w = (inr (x / IZR d), w).
Proof.
  intros H. unfold py_truediv. now destruct (Z.eqb_spec d 0).
Qed.

Lemma py_truediv_err (x : R) (w : world) :
  py_truediv x 0 w = (inl ZeroDivisionError, w).
Proof. reflexivity. Qed.

Lemma genlaguerre_ok (n alpha : Z) (w : world) :
  (-1 < alpha)%Z -> (0 <= n)%Z ->
  genlaguerre n alpha w = (inr (mk_orthopoly1d (Z.to_nat n) alpha), w).
Proof.
  intros Ha Hn. unfold genlaguerre.
  destruct (Z.leb_spec alpha (-1)); [lia|].
  destruct (Z.ltb_spec n 0); [lia|]. reflexivity.
Qed.

Lemma genlaguerre_err (n alpha : Z) (w : world) :
  (alpha <= -1)%Z \/ (n < 0)%Z ->
  exists msg, genlaguerre n alpha w = (inl (ValueError msg), w).
Proof.
  intros H. unfold genlaguerre.
  destruct (Z.leb_spec alpha (-1)); [now eexists|].
  destruct (Z.ltb_spec n 0); [now eexists|]. lia.
Qed.

Ltac lookup :=
  cbn [heap g_a0 trace];
  repeat first [ eassumption
               | apply nth_error_snoc
               | apply nth_error_keep ].

(** One statement of the script: run its first bind with [tac]. *)
Ltac step tac :=
  erewrite bind_ok by tac; cbv beta; cbn [heap g_a0 trace].

Ltac step_unary := step ltac:(eapply np_unary_run; lookup).

Ltac same_length :=
  repeat first [ rewrite length_map | rewrite length_zip_with by same_length ];
  reflexivity.

Ltac step_binary :=
  step ltac:(eapply np_binary_run; [lookup | lookup | same_length]).

Ltac step_a0 := step ltac:(apply get_a0_run).

Lemma radial_wavefunction_run (n l : Z) (p : ref) (w : world) (r : ndarray) :
  nth_error (heap w) p = Some r ->
  exists extra res,
    radial_wavefunction n l p w
    = (res, mk_world (g_a0 w) (heap w ++ extra) (trace w))
    /\ match rw_check (g_a0 w) n l with
       | Some e => res = inl e
       | None =>
           exists q, res = inr q
             /\ (length (heap w) <= q)%nat
             /\ nth_error (heap w ++ extra) q
                = Some (map (R_den (g_a0 w) n l) r)
       end.
Proof.
  intros Hr. unfold radial_wavefunction, rw_check.
  step_unary. step_a0. step_unary. step_a0.
  destruct (Z.eqb_spec (n * g_a0 w) 0) as [Hz|Hz].
  { rewrite Hz. erewrite bind_err by apply py_truediv_err.
    eexists [_; _], _. rewrite <- !app_assoc. split; reflexivity. }
  step ltac:(apply py_truediv_ok; assumption).
  unfold genlaguerre.
  destruct (Z.leb_spec (2 * l + 1) (-1)) as [Ha|Ha].
  { erewrite bind_err by reflexivity.
    eexists [_; _], _. rewrite <- !app_assoc. split; reflexivity. }
  destruct (Z.ltb_spec (n - l - 1) 0) as [Hk|Hk].
  { erewrite bind_err by reflexivity.
    eexists [_; _], _. rewrite <- !app_assoc. split; reflexivity. }
  step ltac:(reflexivity).
  step_unary. step_unary. step_unary. step_unary. step_unary.
  step_binary. step_unary. step_binary.
  unfold ret. cbn [poly_degree poly_alpha].
  eexists [_; _; _; _; _; _; _; _; _; _], _.
  rewrite <- !app_assoc. cbn [app]. split; [reflexivity|].
  eexists. split; [reflexivity|]. split.
  - rewrite !length_app. cbn [length]. lia.
  - rewrite !length_app. cbn [length].
    rewrite nth_error_app2 by lia.
    match goal with
    | |- nth_error _ ?k = _ => replace k with 9%nat by lia
    end.
    cbn [nth_error]. f_equal.
    rewrite !map_map, !zip_with_map, ?map_map.
    apply map_ext. intros x. unfold R_den. reflexivity.
Qed.

Lemma np_linspace_run (start stop : R) (num : nat) (w : world) :
  np_linspace start stop num w
  = (inr (length (heap w)),
     mk_world (g_a0 w) (heap w ++ [linspace start stop num]) (trace w)).
Proof. reflexivity. Qed.

Lemma np_read_run (p : ref) (w : world) (xs : ndarray) :
  nth_error (heap w) p = Some xs -> np_read p w = (inr xs, w).
Proof. intros H. unfold np_read. now rewrite H. Qed.

Lemma plot_single_state_run (n l : Z) (w : world) :
  exists extra,
    let cells := heap w ++ linspace 0.01 (IZR (30 * n ^ 2)) 1000 :: extra in
    plot_single_state n l w
    = match rw_check (g_a0 w) n l with
      | Some e => (inl e, mk_world (g_a0 w) cells (trace w))
      | None =>
          (inr tt,
           mk_world (g_a0 w) cells
             (trace w ++ [PltShow (figure_den (g_a0 w) n l)]))
      end.
Proof.
  unfold plot_single_state.
  step ltac:(apply np_linspace_run).
  set (g := linspace 0.01 (IZR (30 * n ^ 2)) 1000).
  set (w1 := mk_world (g_a0 w) (heap w ++ [g]) (trace w)).
  destruct (radial_wavefunction_run n l (length (heap w)) w1 g)
    as (extra & res & Hrun & Hres); [apply nth_error_snoc|].
  cbn [g_a0 heap trace w1] in Hrun, Hres.
  destruct (rw_check (g_a0 w) n l) as [e|] eqn:Hchk.
  - subst res. erewrite bind_err by exact Hrun.
    exists extra. cbv zeta. now rewrite <- app_assoc.
  - destruct Hres as (q & -> & Hq & Hout).
    step ltac:(exact Hrun).
    step_unary. step_unary. step_binary.
    step ltac:(apply np_read_run; lookup).
    step ltac:(apply np_read_run; lookup).
    step ltac:(apply np_read_run; lookup).
    assert (Hn : (n ^ 2 <> 0)%Z).
    { unfold rw_check in Hchk.
      destruct (Z.eqb_spec (n * g_a0 w) 0); [discriminate|]. nia. }
    step ltac:(apply py_truediv_ok; exact Hn).
    unfold emit. cbn [g_a0 heap trace].
    eexists (extra ++ [_; _; _]). cbv zeta.
    rewrite <- !app_assoc. cbn [app].
    unfold figure_den. fold g.
    rewrite !map_map, zip_with_map. reflexivity.
Qed.

(** ** The recurrence computes the Laguerre polynomial *)

Lemma rising_shift (a : R) (m : nat) :
  rising a (S m) = (a + 1) * rising (a + 1) m.
Proof.
  induction m as [|m IH].
  - simpl. ring.
  - change (rising a (S (S m))) with (rising a (S m) * (a + INR (S (S m)))).
    rewrite IH. change (rising (a + 1) (S m)) with (rising (a + 1) m * (a + 1 + INR (S m))).
    rewrite (S_INR (S m)). ring.
Qed.

Lemma sum_tail_zero (f : nat -> R) (k N : nat) :
  (k <= N)%nat -> (forall i, (k < i)%nat -> f i = 0) ->
  sum_f_R0 f N = sum_f_R0 f k.
Proof.
  intros HkN Hz. induction N as [|N IH].
  - replace k with 0%nat by lia. reflexivity.
  - destruct (Nat.eq_dec k (S N)) as [->|Hne]; [reflexivity|].
    simpl. rewrite IH by lia. rewrite Hz by lia. ring.
Qed.

Lemma sum_shift_x (a : nat -> R) (x : R) (N : nat) :
  x * sum_f_R0 (fun i => a i * x ^ i) N
  = sum_f_R0 (fun i => match i with O => 0 | S j => a j end * x ^ i) (S N).
Proof.
  induction N as [|N IH].
  - simpl. ring.
  - rewrite tech5. rewrite Rmult_plus_distr_l, IH.
    rewrite (tech5 _ (S N)). simpl. ring.
Qed.

Lemma sum_lin3 (f g h : nat -> R) (a b : R) (N : nat) :
  sum_f_R0 (fun i => a * f i - g i - b * h i) N
  = a * sum_f_R0 f N - sum_f_R0 g N - b * sum_f_R0 h N.
Proof.
  induction N as [|N IH]; simpl; [ring|]. rewrite IH. ring.
Qed.

Lemma rising_shift_INR (alpha : R) (i n : nat) :
  rising (alpha + INR i) (S n)
  = (alpha + INR (S i)) * rising (alpha + INR (S i)) n.
Proof.
  rewrite rising_shift, S_INR.
  replace (alpha + INR i + 1) with (alpha + (INR i + 1)) by ring.
  reflexivity.
Qed.

Ltac leb_true := 
  match goal with
  | |- context [Nat.leb ?a ?b] =>
      destruct (Nat.leb_spec a b); [|lia]
  end.
Ltac leb_false := 
  match goal with
  | |- context [Nat.leb ?a ?b] =>
      destruct (Nat.leb_spec a b); [lia|]
  end.

Ltac field_nz :=
  repeat split; try apply INR_fact_neq_0; try lra.

Lemma lag_coeff_rec (m : nat) (alpha : R) (i : nat) :
  INR (S (S m)) * lag_coeff (S (S m)) alpha i
  = (2 * INR (S m) + 1 + alpha) * lag_coeff (S m) alpha i
    - match i with O => 0 | S j => lag_coeff (S m) alpha j end
    - (INR (S m) + alpha) * lag_coeff m alpha i.
Proof.
  destruct (Nat.le_gt_cases i m) as [Him|Him].
  - (* i <= m *)
    assert (Hj : exists j, m = (i + j)%nat) by (exists (m - i)%nat; lia).
    destruct Hj as [j ->].
    pose proof (pos_INR i) as Hi0. pose proof (pos_INR j) as Hj0.
    destruct i as [|i'].
    + unfold lag_coeff. repeat leb_true.
      replace (S (S (0 + j)) - 0)%nat with (S (S j)) by lia.
      replace (S (0 + j) - 0)%nat with (S j) by lia.
      replace (0 + j - 0)%nat with j by lia.
      replace (0 + j)%nat with j by lia.
      cbn [rising]. rewrite !fact_simpl, !mult_INR, !S_INR.
      simpl (INR 0). simpl ((-1) ^ 0). simpl (INR (fact 0)).
      field. field_nz.
    + unfold lag_coeff. repeat leb_true.
      replace (S (S (S i' + j)) - S i')%nat with (S (S j)) by lia.
      replace (S (S i' + j) - S i')%nat with (S j) by lia.
      replace (S i' + j - S i')%nat with j by lia.
      replace (S (S i' + j) - i')%nat with (S (S j)) by lia.
      rewrite (rising_shift_INR alpha i' (S j)).
      cbn [rising]. 
      set (P := rising (alpha + INR (S i')) j).
      rewrite !fact_simpl, !mult_INR.
      repeat first [rewrite S_INR | rewrite plus_INR].
      pose proof (pos_INR i') as Hi'0.
      rewrite <- !tech_pow_Rmult.
      field. field_nz.
  - destruct (Nat.eq_dec i (S m)) as [->|Hne].
    + (* i = S m *)
      unfold lag_coeff. repeat leb_true. leb_false.
      replace (S (S m) - S m)%nat with 1%nat by lia.
      replace (S m - S m)%nat with 0%nat by lia.
      replace (S m - m)%nat with 1%nat by lia.
      cbn [rising]. simpl (fact 1). simpl (fact 0). simpl (INR 1).
      rewrite !fact_simpl, !mult_INR, !S_INR. simpl (INR 0).
      pose proof (pos_INR m) as Hm0.
      rewrite <- !tech_pow_Rmult.
      field. field_nz.
    + destruct (Nat.eq_dec i (S (S m))) as [->|Hne2].
      * unfold lag_coeff. leb_true. leb_false. leb_true. leb_false.
        replace (S (S m) - S (S m))%nat with 0%nat by lia.
        replace (S m - S m)%nat with 0%nat by lia.
        cbn [rising]. simpl (fact 0). 
        rewrite !fact_simpl, !mult_INR, !S_INR. simpl (INR 0).
        pose proof (pos_INR m) as Hm0.
        rewrite <- !tech_pow_Rmult.
        field. field_nz.
      * destruct i as [|i']; [lia|].
        unfold lag_coeff. repeat leb_false. ring.
Qed.

Lemma laguerre_sum_ext (k N : nat) (alpha x : R) :
  (k <= N)%nat ->
  laguerre_sum k alpha x = sum_f_R0 (fun i => lag_coeff k alpha i * x ^ i) N.
Proof.
  intros H. unfold laguerre_sum. symmetry. apply sum_tail_zero; [assumption|].
  intros i Hi. unfold lag_coeff. destruct (Nat.leb_spec i k); [lia|]. ring.
Qed.

Lemma laguerre_sum_rec (m : nat) (alpha x : R) :
  INR (S (S m)) * laguerre_sum (S (S m)) alpha x
  = (2 * INR (S m) + 1 + alpha - x) * laguerre_sum (S m) alpha x
    - (INR (S m) + alpha) * laguerre_sum m alpha x.
Proof.
  set (N := S (S m)).
  replace ((2 * INR (S m) + 1 + alpha - x) * laguerre_sum (S m) alpha x)
    with ((2 * INR (S m) + 1 + alpha) * laguerre_sum (S m) alpha x
          - x * laguerre_sum (S m) alpha x) by ring.
  unfold laguerre_sum at 3. rewrite sum_shift_x. fold N.
  rewrite (laguerre_sum_ext (S m) N), (laguerre_sum_ext m N) by (unfold N; lia).
  unfold laguerre_sum. fold N.
  rewrite <- sum_lin3, scal_sum.
  apply sum_eq. intros i _.
  pose proof (lag_coeff_rec m alpha i) as H. fold N in H.
  transitivity (INR N * lag_coeff N alpha i * x ^ i); [ring|].
  rewrite H. ring.
Qed.

Theorem eval_genlaguerre_sum (k : nat) (alpha x : R) :
  eval_genlaguerre k alpha x = laguerre_sum k alpha x.
Proof.
  assert (H : eval_genlaguerre k alpha x = laguerre_sum k alpha x
              /\ eval_genlaguerre (S k) alpha x = laguerre_sum (S k) alpha x).
  { induction k as [|k [IH0 IH1]].
    - split.
      + unfold laguerre_sum, lag_coeff. simpl. field.
      + unfold laguerre_sum, lag_coeff. simpl. field.
    - split; [assumption|].
      change (eval_genlaguerre (S (S k)) alpha x)
        with (((2 * INR (S k) + 1 + alpha - x) * eval_genlaguerre (S k) alpha x
               - (INR (S k) + alpha) * eval_genlaguerre k alpha x)
              / INR (S (S k))).
      rewrite IH0, IH1, <- laguerre_sum_rec.
      field. apply not_0_INR. lia. }
  apply H.
Qed.

(** ** The quantum numbers the evaluator accepts *)

Lemma rw_check_valid (n l : Z) :
  (1 <= n)%Z -> (0 <= l < n)%Z -> rw_check 1 n l = None.
Proof.
  intros Hn Hl. unfold rw_check.
  destruct (Z.eqb_spec (n * 1) 0); [lia|].
  destruct (Z.leb_spec (2 * l + 1) (-1)); [lia|].
  destruct (Z.ltb_spec (n - l - 1) 0); [lia|]. reflexivity.
Qed.


(** On valid quantum numbers and with [a0 = 1] the code's expression is the
    specification's formula. *)
Lemma R_den_spec (n l : Z) (x : R) :
  (1 <= n)%Z -> (0 <= l < n)%Z -> R_den 1 n l x = R_spec n l x.
Proof.
  intros Hn Hl.
  unfold R_den, R_spec, norm_spec, laguerre_spec, rho_spec, factorial.
  destruct (Z.ltb_spec (n - l - 1) 0); [lia|].
  destruct (Z.ltb_spec (n + l) 0); [lia|].
  rewrite Z.mul_1_r, mult_IZR, Rmult_1_r.
  rewrite (pow_powerRZ _ (Z.to_nat l)), Z2Nat.id by lia.
  rewrite <- eval_genlaguerre_sum. reflexivity.
Qed.

(** ** Closed forms of the lowest states *)



Lemma sqrt_6_pos : 0 < sqrt 6.
Proof. apply sqrt_lt_R0. lra. Qed.


Lemma R_spec_2_1 (x : R) :
  R_spec 2 1 x = 1 / (2 * sqrt 6) * x * exp (- x / 2).
Proof.
  pose proof sqrt_6_pos as H6.
  assert (Hs : sqrt 6 * sqrt 6 = 6) by (apply sqrt_sqrt; lra).
  unfold R_spec, norm_spec, laguerre_spec, rho_spec.
  rewrite <- eval_genlaguerre_sum. simpl.
  match goal with
  | |- context [sqrt ?a] => replace a with (1 / 24) by field
  end.
  rewrite (sqrt_lem_1 (1 / 24) (1 / (2 * sqrt 6))).
  - replace (- (2 * x / (2 * 1)) / 2) with (- x / 2) by field.
    field. lra.
  - lra.
  - apply Rlt_le. apply Rdiv_lt_0_compat; lra.
  - replace (1 / (2 * sqrt 6) * (1 / (2 * sqrt 6)))
      with (1 / (4 * (sqrt 6 * sqrt 6))) by (field; lra).
    rewrite Hs. lra.
Qed.

(** ** States of maximal angular momentum *)



(** ** The radial grid *)


Section Linspace.

Variables (start stop : R) (num : nat).
Hypothesis Hnum : (2 <= num)%nat.





End Linspace.





(** ** The Laguerre polynomials of low degree *)

Lemma eval_genlaguerre_0 (alpha x : R) : eval_genlaguerre 0 alpha x = 1.
Proof. reflexivity. Qed.

Lemma eval_genlaguerre_1 (alpha x : R) :
  eval_genlaguerre 1 alpha x = 1 + alpha - x.
Proof. reflexivity. Qed.

Lemma eval_genlaguerre_2 (alpha x : R) :
  eval_genlaguerre 2 alpha x
  = x ^ 2 / 2 - (alpha + 2) * x + (alpha + 1) * (alpha + 2) / 2.
Proof. simpl. field. Qed.

Lemma eval_genlaguerre_3 (alpha x : R) :
  eval_genlaguerre 3 alpha x
  = - x ^ 3 / 6 + (alpha + 3) * x ^ 2 / 2
    - (alpha + 2) * (alpha + 3) * x / 2
    + (alpha + 1) * (alpha + 2) * (alpha + 3) / 6.
Proof. simpl. field. Qed.

(** ** The evaluator on valid quantum numbers *)



(** ** The plotter on valid quantum numbers *)

Lemma plot_single_state_valid (n l : Z) (w : world) :
  (1 <= n)%Z -> (0 <= l < n)%Z -> g_a0 w = 1%Z ->
  exists w',
    plot_single_state n l w = (inr tt, w')
    /\ trace w' = trace w ++ [PltShow (figure_den 1 n l)].
Proof.
  intros Hn Hl Ha.
  destruct (plot_single_state_run n l w) as (extra & Hrun). cbv zeta in Hrun.
  rewrite Ha, rw_check_valid in Hrun by assumption.
  eexists. split; [exact Hrun | reflexivity].
Qed.

(** * Properties of the script *)















(** C8.  The evaluator has no side effect and is deterministic.  Run in any
    world on an array [r], it leaves the global [a0], the process output and
    every array that existed (its input among them) as they were; what it
    returns is a new array.  Run in two worlds that agree on [a0] on arrays
    of equal contents (in particular twice in a row), it raises the same
    exception or returns arrays of equal contents.  The plotter run in two
    such worlds ends the same way and emits the same events. *)
Theorem C8_pure_and_deterministic
        (n l : Z) (p p' : ref) (w v : world) (r : ndarray) :
  nth_error (heap w) p = Some r ->
  nth_error (heap v) p' = Some r ->
  g_a0 v = g_a0 w ->
  (exists res w1 res' v1,
     radial_wavefunction n l p w = (res, w1)
     /\ radial_wavefunction n l p' v = (res', v1)
     /\ g_a0 w1 = g_a0 w
     /\ trace w1 = trace w
     /\ (forall a xs, nth_error (heap w) a = Some xs ->
           nth_error (heap w1) a = Some xs)
     /\ match res, res' with
        | inl e, inl e' => e = e'
        | inr q, inr q' =>
            (length (heap w) <= q)%nat
            /\ exists out, nth_error (heap w1) q = Some out
                 /\ nth_error (heap v1) q' = Some out
        | _, _ => False
        end)
  /\ (exists res w2 v2 evs,
        plot_single_state n l w = (res, w2)
        /\ plot_single_state n l v = (res, v2)
        /\ trace w2 = trace w ++ evs
        /\ trace v2 = trace v ++ evs
        /\ g_a0 w2 = g_a0 w
        /\ (forall a xs, nth_error (heap w) a = Some xs ->
              nth_error (heap w2) a = Some xs)).
Proof.
  intros Hp Hp' Ha. split.
  - destruct (radial_wavefunction_run n l p w r Hp)
      as (extra & res & Hrun & Hres).
    destruct (radial_wavefunction_run n l p' v r Hp')
      as (extra' & res' & Hrun' & Hres').
    rewrite Ha in Hres'.
    eexists res, _, res', _.
    split; [exact Hrun|]. split; [exact Hrun'|]. cbn [g_a0 heap trace].
    split; [reflexivity|]. split; [reflexivity|].
    split; [intros a xs Hx; now apply nth_error_keep|].
    destruct (rw_check (g_a0 w) n l) as [e|].
    + subst res res'. reflexivity.
    + destruct Hres as (q & -> & Hq & Hout).
      destruct Hres' as (q' & -> & _ & Hout').
      split; [assumption|]. eexists. split; [exact Hout | exact Hout'].
  - destruct (plot_single_state_run n l w) as (extra & Hrun).
    destruct (plot_single_state_run n l v) as (extra' & Hrun').
    cbv zeta in Hrun, Hrun'. rewrite Ha in Hrun'.
    destruct (rw_check (g_a0 w) n l) as [e|].
    + eexists _, _, _, []. split; [exact Hrun|]. split; [exact Hrun'|].
      cbn [g_a0 heap trace]. rewrite !app_nil_r.
      repeat split. intros a xs Hx. now apply nth_error_keep.
    + eexists _, _, _, [_]. split; [exact Hrun|]. split; [exact Hrun'|].
      cbn [g_a0 heap trace].
      repeat split. intros a xs Hx. now apply nth_error_keep.
Qed.

Lemma C8_pure_and_deterministic_witness :
  (exists res w1 res' v1,
     radial_wavefunction 2 0 0%nat (mk_world 1 [[1; 2]] []) = (res, w1)
     /\ radial_wavefunction 2 0 1%nat
          (mk_world 1 [[7]; [1; 2]] [Stdout "earlier output"]) = (res', v1)
     /\ g_a0 w1 = g_a0 (mk_world 1 [[1; 2]] [])
     /\ trace w1 = trace (mk_world 1 [[1; 2]] [])
     /\ (forall a xs, nth_error (heap (mk_world 1 [[1; 2]] [])) a = Some xs ->
           nth_error (heap w1) a = Some xs)
     /\ match res, res' with
        | inl e, inl e' => e = e'
        | inr q, inr q' =>
            le (length (heap (mk_world 1 [[1; 2]] []))) q
            /\ exists out, nth_error (heap w1) q = Some out
                 /\ nth_error (heap v1) q' = Some out
        | _, _ => False
        end)
  /\ (exists res w2 v2 evs,
        plot_single_state 2 0 (mk_world 1 [[1; 2]] []) = (res, w2)
        /\ plot_single_state 2 0
             (mk_world 1 [[7]; [1; 2]] [Stdout "earlier output"]) = (res, v2)
        /\ trace w2 = trace (mk_world 1 [[1; 2]] []) ++ evs
        /\ trace v2
           = trace (mk_world 1 [[7]; [1; 2]] [Stdout "earlier output"]) ++ evs
        /\ g_a0 w2 = g_a0 (mk_world 1 [[1; 2]] [])
        /\ (forall a xs, nth_error (heap (mk_world 1 [[1; 2]] [])) a = Some xs ->
              nth_error (heap w2) a = Some xs)).
Proof.
  apply (C8_pure_and_deterministic 2 0 0%nat 1%nat
           (mk_world 1 [[1; 2]] [])
           (mk_world 1 [[7]; [1; 2]] [Stdout "earlier output"]) [1; 2]);
    reflexivity.
Defined.

(** C9.  Run as a program, the script prints
    ["Plotting n=2, l=0 state..."], which names the state [n=2, l=0], and
    then shows the figure of [plot_single_state(n=2, l=1)]: its legends and
    title read [n=2, l=1] and its first panel is the [2p] function
    [(1/(2 sqrt 6)) r exp(-r/2)].  The printed label is not the label of the
    state plotted. *)
Theorem C9_main_label_mismatch :
  exists fig w',
    main module_world = (inr tt, w')
    /\ trace w' = [Stdout "Plotting n=2, l=0 state..."; PltShow fig]
    /\ "Plotting n=2, l=0 state..."%string
       = ("Plotting " ++ state_label 2 0 ++ " state...")%string
    /\ label (ax1_line fig) = state_label 2 1
    /\ label (ax2_line fig) = state_label 2 1
    /\ suptitle_head fig = "Hydrogen Atom: n=2, l=1 | Energy = "%string
    /\ state_label 2 1 = "n=2, l=1"%string
    /\ state_label 2 0 <> state_label 2 1
    /\ ydata (ax1_line fig)
       = map (fun x => 1 / (2 * sqrt 6) * x * exp (- x / 2))
           (xdata (ax1_line fig)).
Proof.
  set (w0 := mk_world 1 [] [Stdout "Plotting n=2, l=0 state..."]).
  destruct (plot_single_state_valid 2 1 w0 ltac:(lia) ltac:(lia) eq_refl)
    as (w' & Hrun & Htr).
  exists (figure_den 1 2 1), w'.
  split.
  { unfold main. erewrite bind_ok by reflexivity. exact Hrun. }
  split; [exact Htr|].
  split; [reflexivity|]. split; [reflexivity|]. split; [reflexivity|].
  split; [reflexivity|]. split; [reflexivity|].
  split; [discriminate|].
  cbn [figure_den ax1_line xdata ydata].
  apply map_ext. intros x.
  rewrite R_den_spec by lia. apply R_spec_2_1.
Qed.




(** * Further properties of the script *)

(** ** Which quantum numbers are accepted, and how the others fail *)






(** ** What the second panel shows *)






(** ** The evaluator works point by point *)



(** ** The value at the nucleus *)







(** ** The states of maximal angular momentum *)







(** ** The states with one radial node *)




(** ** The energies of the shells *)



(** ** The role of the global [a0] *)




(** ** Every state decays *)






(** ** Legends and titles identify the state *)

From Stdlib Require DecimalPos DecimalZ.

(** The character [,] (code 44), which separates the two fields. *)
Abbreviation comma :=
  (Ascii.Ascii false false true true false true false false) (only parsing).








